(** * StdUnorderedMapPerfIssue: hash-combination benchmark

    A shallow embedding of [StdUnorderedMapPerfIssue.cpp]: the composite
    [Key], the two hash-combination functors [HasherA] and [HasherB], the
    population routine [PopulateMap], the timing routine [RunTest] and the
    entry point [_tmain].

    Platform conventions.  [std::size_t] and [std::uint64_t] are 64-bit
    unsigned integers and [std::uint32_t] is a 32-bit unsigned integer; both
    are represented by [Z] with the range written out.  The three library
    components the program relies on but does not define
    ([std::hash<std::string>], [std::default_random_engine] with
    [std::uniform_int_distribution], and the arithmetic of [double]) are
    interfaces here; concrete instances are given at the end of the
    definitions so that every function can be evaluated. *)

From Stdlib Require Import ZArith Lia String Ascii List Uint63 PrimFloat QArith Field.
From stdpp Require Import gmap strings list fin_maps.

Local Open Scope Z_scope.

(** ** Fixed-width unsigned integers *)

Definition UINT32_MAX : Z := 0xFFFFFFFF.
Definition two32 : Z := 2 ^ 32.
Definition two64 : Z := 2 ^ 64.

Definition is_uint32 (z : Z) : Prop := 0 <= z < two32.
Definition is_uint64 (z : Z) : Prop := 0 <= z < two64.

(** Conversion to a 64-bit unsigned value (wrap, not saturate). *)
Definition to_uint64 (z : Z) : Z := z mod two64.

(** The low and the high 32-bit halves of a 64-bit value. *)
Definition low32 (z : Z) : Z := Z.land z 0xFFFFFFFF.
Definition high32 (z : Z) : Z := Z.shiftr z 32.

(** ** The key type (lines 16-31) *)

Record Key : Type := mkKey {
  Datum : Z;          (* std::uint32_t Datum *)
  Text : string       (* std::string Text *)
}.

(** A key as the C++ type admits it: [Datum] is a [std::uint32_t]. *)
Definition wf_Key (k : Key) : Prop := is_uint32 (Datum k).

(** [bool operator==(const Key& rhs) const]:
    [return Datum == rhs.Datum && Text == rhs.Text;] *)
Definition Key_eq (lhs rhs : Key) : bool :=
  (Datum lhs =? Datum rhs) && String.eqb (Text lhs) (Text rhs).

#[global] Instance Key_eq_dec : EqDecision Key.
Proof. solve_decision. Defined.

#[global] Instance Key_countable : Countable Key.
Proof.
  refine (inj_countable' (fun k => (Datum k, Text k))
                         (fun p => mkKey (fst p) (snd p)) _).
  intros []; reflexivity.
Defined.

(** ** The string hash

    [std::hash<std::string>] is the standard library's; the program only
    relies on it being a function from strings to [std::size_t]. *)

Class StringHash : Type := {
  std_hash : string -> Z;
  std_hash_range : forall s, is_uint64 (std_hash s)
}.

(** ** The two hashers (lines 40-58) *)

Section Hashers.
Context `{StringHash}.

(** [HasherB::operator()]:
    [auto textHash = std::hash<std::string>()(key.Text);]
    [return (static_cast<std::uint64_t>(key.Datum) << 32) | (textHash & 0xFFFFFFFF);] *)
Definition HasherB (key : Key) : Z :=
  let textHash := std_hash (Text key) in
  Z.lor (to_uint64 (Z.shiftl (Datum key) 32)) (Z.land textHash 0xFFFFFFFF).

(** [HasherA::operator()]:
    [auto textHash = std::hash<std::string>()(key.Text);]
    [return textHash & 0xFFFFFFFF00000000 | key.Datum;]
    ([&] binds tighter than [|]). *)
Definition HasherA (key : Key) : Z :=
  let textHash := std_hash (Text key) in
  Z.lor (Z.land textHash 0xFFFFFFFF00000000) (Datum key).

End Hashers.

(** ** The pseudo-random source (lines 63-64)

    [std::default_random_engine] with its default constructor, and the draw
    [distribution(engine)] of a
    [std::uniform_int_distribution<std::uint32_t>(0, UINT32_MAX)].  The
    engine is a value that every draw advances. *)

Class RandomEngine : Type := {
  Engine : Type;
  default_engine : Engine;
  distribution : Engine -> Z * Engine;
  distribution_range : forall e, 0 <= fst (distribution e) <= UINT32_MAX
}.

(** ** Map objects and the object store

    An [unordered_map<Key, std::uint8_t, Hasher>] is represented by its
    contents, a finite map from keys to byte values; bucket layout and
    capacity are not observable by the program.  The container identifies
    keys by [operator==], which is equality of keys ([Key_eq_true_iff]
    below), and both hashers are functions of the key.  Map objects live in
    a store indexed by locations, so that an object and a copy of it are
    distinct entries. *)

Abbreviation MapObj := (gmap Key Z).
Abbreviation Store := (gmap positive (gmap Key Z)).

(** [map[key] = value] on the object at [l]. *)
Definition index_assign (l : positive) (key : Key) (value : Z) (σ : Store) : Store :=
  alter (insert key value) l σ.

(** [map.clear()] on the object at [l]. *)
Definition map_clear (l : positive) (σ : Store) : Store :=
  alter (fun _ => ∅) l σ.

(** [map.reserve(n)] on the object at [l]: the contents are unchanged. *)
Definition map_reserve (l : positive) (n : Z) (σ : Store) : Store := σ.

(** [map.size()] of the object at [l] (0 when no object lives there). *)
Definition map_size (l : positive) (σ : Store) : nat :=
  size (default (∅ : gmap Key Z) (σ !! l)).

(** [for (i = lo; i < hi; ++i) body] over a loop state of type [S]. *)
Definition for_range {S : Type} (lo hi : Z) (body : Z -> S -> S) (s : S) : S :=
  fold_left (fun s i => body i s) (seqZ lo (hi - lo)) s.

(** ** The population routine (lines 60-72) *)

Section Population.
Context `{RandomEngine}.

(** The state of the loop of [PopulateMap]: the local [engine], the
    store, and the sequence of assignments [map[key] = value] executed
    so far (oldest first). *)
Definition PopulateState : Type := Engine * Store * list (Key * Z).

(** One iteration:
    [auto key = Key(distribution(engine), text);]
    [map[key] = i % 256;] *)
Definition PopulateMap_body (text : string) (map : positive) (i : Z)
    (st : PopulateState) : PopulateState :=
  let '(engine, σ, written) := st in
  let '(datum, engine') := distribution engine in
  let key := mkKey datum text in
  let value := i mod 256 in
  (engine', index_assign map key value σ, written ++ [(key, value)]).

(** The body of [PopulateMap] run on the map object at location [map]:
    the final store and the assignments executed. *)
Definition PopulateMap_on (numElements : Z) (map : positive) (σ : Store)
    : Store * list (Key * Z) :=
  let engine := default_engine in
  let text := "all elements share the same text"%string in
  let '(_, σ', written) :=
    for_range 0 numElements (PopulateMap_body text map) (engine, σ, []) in
  (σ', written).

(** The location of the parameter object of a call made in store [σ]. *)
Definition parameter_loc (σ : Store) : positive := fresh (dom σ).

(** The store in which the body of a call [PopulateMap(numElements, arg)]
    runs: the parameter [MapType map] is a new object, copy-initialised
    from the argument. *)
Definition PopulateMap_enter (arg : gmap Key Z) (σ : Store) : Store :=
  <[parameter_loc σ := arg]> σ.

(** [template<typename MapType> void PopulateMap(std::uint32_t numElements, MapType map)]
    called in store [σ] with the argument value [arg].  The body runs on
    the parameter object, which is destroyed when the call returns.  The
    second component is the sequence of assignments the call executed. *)
Definition PopulateMap (numElements : Z) (arg : gmap Key Z) (σ : Store)
    : Store * list (Key * Z) :=
  let map := parameter_loc σ in
  let '(σ', written) := PopulateMap_on numElements map (PopulateMap_enter arg σ) in
  (delete map σ', written).

(** The numeric fields drawn by [n] successive draws from [e]. *)
Fixpoint draws (n : nat) (e : Engine) : list Z :=
  match n with
  | O => []
  | S n' => let '(d, e') := distribution e in d :: draws n' e'
  end.

(** The assignments [map[key] = value] that the loop executes for the
    loop indices [indices], starting with the engine in state [e]. *)
Fixpoint generated (text : string) (indices : list Z) (e : Engine)
    : list (Key * Z) :=
  match indices with
  | [] => []
  | i :: rest =>
      let '(d, e') := distribution e in
      (mkKey d text, i mod 256) :: generated text rest e'
  end.

End Population.

(** The contents of a map object after the assignments [ws], in order. *)
Definition assign_all (ws : list (Key * Z)) (m : gmap Key Z) : gmap Key Z :=
  fold_left (fun m kv => <[fst kv := snd kv]> m) ws m.

(** ** Floating point and the clock

    The arithmetic of [double] is an interface: conversion from an integer,
    addition, multiplication and division.  [system_clock::period] is
    [std::ratio<1, period_den>]; a [system_clock::duration] is a signed
    count of such ticks, represented by [Z]. *)

Class DoubleArith : Type := {
  double : Type;
  d_of_Z : Z -> double;
  d_add : double -> double -> double;
  d_mul : double -> double -> double;
  d_div : double -> double -> double
}.

Class SystemClock : Type := {
  period_den : Z
}.

(** What is written to [std::cout], one item per [<<]. *)
Inductive Output `{DoubleArith} : Type :=
| out_string (s : string)
| out_integer (z : Z)
| out_double (x : double)
| out_endl.

Arguments out_string {_} _.
Arguments out_integer {_} _.
Arguments out_double {_} _.
Arguments out_endl {_}.

(** The two map templates and the two hashers that [_tmain] instantiates
    [RunTest] with. *)
Inductive MapTemplate : Type := boost_unordered_map | std_unordered_map.
Inductive Hasher : Type := Hasher_A | Hasher_B.

Record Instantiation : Type := mkInstantiation {
  inst_map : MapTemplate;
  inst_hasher : Hasher;
  inst_numIterations : Z;
  inst_numElements : Z
}.

(** The state of the process.  [clock] is the sequence of values that
    successive calls of [system_clock::now()] return and [clock_reads] the
    number of calls made so far.  [entered] is a ghost component without a
    counterpart in the source: it lists, in order, the entries into
    [RunTest] with their template arguments and parameters; nothing reads
    it. *)
Record Process `{DoubleArith} : Type := mkProcess {
  heap : Store;
  clock : nat -> Z;
  clock_reads : nat;
  console : list Output;
  entered : list Instantiation
}.

Arguments mkProcess {_} _ _ _ _ _.

Section Timing.
Context `{RandomEngine} `{DoubleArith} `{SystemClock}.

(** State passing over [Process]. *)
Definition M (A : Type) : Type := Process -> A * Process.

Definition ret {A : Type} (a : A) : M A := fun p => (a, p).

Definition bind {A B : Type} (c : M A) (k : A -> M B) : M B :=
  fun p => let '(a, p') := c p in k a p'.

#[global] Instance M_ret : MRet M := @ret.
#[global] Instance M_bind : MBind M := fun A B k c => bind c k.

Definition on_heap (f : Store -> Store) : M unit :=
  fun p => (tt, mkProcess (f (heap p)) (clock p) (clock_reads p)
                          (console p) (entered p)).

(** [std::cout << item]. *)
Definition cout (items : list Output) : M unit :=
  fun p => (tt, mkProcess (heap p) (clock p) (clock_reads p)
                          (console p ++ items) (entered p)).

(** [std::chrono::system_clock::now()]. *)
Definition now : M Z :=
  fun p => (clock p (clock_reads p),
            mkProcess (heap p) (clock p) (Datatypes.S (clock_reads p))
                      (console p) (entered p)).

Definition enter (i : Instantiation) : M unit :=
  fun p => (tt, mkProcess (heap p) (clock p) (clock_reads p)
                          (console p) (entered p ++ [i])).

(** [MapType map;]: a new, empty map object. *)
Definition new_map : M positive :=
  fun p => let l := fresh (dom (heap p)) in
           (l, mkProcess (<[l := ∅]> (heap p)) (clock p) (clock_reads p)
                         (console p) (entered p)).

(** The call [PopulateMap(numElements, map)] where [map] names the
    object at [l]: the argument is the value of that object. *)
Definition call_PopulateMap (numElements : Z) (l : positive) : M unit :=
  fun p => let arg := default ∅ (heap p !! l) in
           (tt, mkProcess (fst (PopulateMap numElements arg (heap p)))
                          (clock p) (clock_reads p) (console p) (entered p)).

(** [for (i = lo; i < hi; ++i) body] with a loop-carried value. *)
Fixpoint for_each {A : Type} (indices : list Z) (body : Z -> A -> M A) (a : A) : M A :=
  match indices with
  | [] => mret a
  | i :: rest => a' ← body i a; for_each rest body a'
  end.

(** [std::chrono::duration_cast<std::chrono::milliseconds>(d).count()]:
    integer arithmetic, truncating towards zero. *)
Definition milliseconds_count (d : Z) : Z :=
  let g := Z.gcd 1000 period_den in
  Z.quot (d * (1000 / g)) (period_den / g).

(** Conversions between [duration<double, ratio<1,1>>] and
    [duration<double, system_clock::period>]. *)
Definition seconds_to_ticks (x : double) : double :=
  if period_den =? 1 then x else d_mul x (d_of_Z period_den).
Definition ticks_to_seconds (x : double) : double :=
  if period_den =? 1 then x else d_div x (d_of_Z period_den).

(** [acc + d] for [acc : duration<double, ratio<1,1>>] and
    [d : system_clock::duration], converted back to the type of [acc]. *)
Definition duration_plus (acc : double) (d : Z) : double :=
  ticks_to_seconds (d_add (seconds_to_ticks acc) (d_of_Z d)).

(** [std::accumulate(durations.begin(), durations.end(), init)]. *)
Definition accumulate (durations : list Z) (init : double) : double :=
  fold_left duration_plus durations init.

(** One iteration of the loop of [RunTest] (lines 83-93); the
    loop-carried value is the vector [durations]. *)
Definition RunTest_iteration (numElements : Z) (map : positive)
    (i : Z) (durations : list Z) : M (list Z) :=
  cout [out_string "Iteration "; out_integer i; out_string " started... "];;
  startTime ← now;
  call_PopulateMap numElements map;;
  on_heap (map_clear map);;
  endTime ← now;
  let iteartionDuration := endTime - startTime in
  cout [out_string "ended. Duration: ";
        out_double (d_div (d_of_Z (milliseconds_count iteartionDuration)) (d_of_Z 1000));
        out_endl];;
  mret (durations ++ [iteartionDuration]).

(** Lines 77-94: the declarations and the loop; the result is the
    location of [map] and the vector [durations]. *)
Definition RunTest_loop (numIterations numElements : Z) : M (positive * list Z) :=
  map ← new_map;
  on_heap (map_reserve map numElements);;
  durations ← for_each (seqZ 0 numIterations)
                       (RunTest_iteration numElements map) [];
  mret (map, durations).

(** Lines 96-97. *)
Definition RunTest_report (numIterations : Z) (durations : list Z) : M double :=
  let InSeconds := accumulate durations (d_of_Z 0) in
  cout [out_string "Total duration: "; out_double InSeconds;
        out_string "; Average duration: ";
        out_double (d_div InSeconds (d_of_Z numIterations)); out_endl];;
  mret InSeconds.

(** [template<typename MapType> duration<double> RunTest(std::uint8_t numIterations, std::uint32_t numElements)]. *)
Definition RunTest (T : MapTemplate) (h : Hasher)
    (numIterations numElements : Z) : M double :=
  enter (mkInstantiation T h numIterations numElements);;
  r ← RunTest_loop numIterations numElements;
  InSeconds ← RunTest_report numIterations (snd r);
  on_heap (delete (fst r));;
  mret InSeconds.

(** [int _tmain(int argc, _TCHAR* argv[])]. *)
Definition _tmain (argc : Z) (argv : list string) : M Z :=
  let numIterations := 5 in
  let numElements := 20000 in
  boostDurationA ← RunTest boost_unordered_map Hasher_A numIterations numElements;
  stdDurationA ← RunTest std_unordered_map Hasher_A numIterations numElements;
  boostDurationB ← RunTest boost_unordered_map Hasher_B numIterations numElements;
  stdDurationB ← RunTest std_unordered_map Hasher_B numIterations numElements;
  cout [out_string "Number of iterations "; out_integer numIterations; out_endl];;
  cout [out_string "Number of elements handled per iteration ";
        out_integer numElements; out_endl];;
  cout [out_string "std::unordered_map runtime - HasherA: ";
        out_double stdDurationA; out_endl];;
  cout [out_string "boost::unordered_map runtime - HasherA: ";
        out_double boostDurationA; out_endl];;
  cout [out_string "Ratio (boost/std): ";
        out_double (d_div boostDurationA stdDurationA); out_endl];;
  cout [out_string "std::unordered_map runtime - HasherB: ";
        out_double stdDurationB; out_endl];;
  cout [out_string "boost::unordered_map runtime - HasherB: ";
        out_double boostDurationB; out_endl];;
  cout [out_string "Ratio (boost/std): ";
        out_double (d_div boostDurationB stdDurationB); out_endl];;
  mret 0.

End Timing.

(** The sum, in ticks, of a vector of durations. *)
Definition total_ticks (durations : list Z) : Z := fold_right Z.add 0 durations.

(** The durations that [n] successive iterations record when the clock has
    been read [r] times before: each iteration reads the clock twice. *)
Fixpoint elapsed (clk : nat -> Z) (r : nat) (n : nat) : list Z :=
  match n with
  | O => []
  | S n' => (clk (S r) - clk r) :: elapsed clk (S (S r)) n'
  end.

(** The whole milliseconds in a duration of [d] ticks, [period_den] ticks
    making a second: [d * 1000 / period_den] rounded towards zero. *)
Definition whole_milliseconds `{SystemClock} (d : Z) : Z :=
  Z.quot (d * 1000) period_den.

(** What the iteration with loop index [i] is to print when it measures
    the duration [d]: the index, and the duration in whole milliseconds
    divided by 1000. *)
Definition iteration_output `{DoubleArith} `{SystemClock} (i d : Z) : list Output :=
  [out_string "Iteration "; out_integer i; out_string " started... ";
   out_string "ended. Duration: ";
   out_double (d_div (d_of_Z (whole_milliseconds d)) (d_of_Z 1000));
   out_endl].

(** What the iterations with loop indices [indices] print when the clock
    has been read [r] times before. *)
Fixpoint iterations_output `{DoubleArith} `{SystemClock}
    (clk : nat -> Z) (r : nat) (indices : list Z) : list Output :=
  match indices with
  | [] => []
  | i :: rest =>
      iteration_output i (clk (S r) - clk r) ++ iterations_output clk (S (S r)) rest
  end.

(** A clock that never goes back between two successive readings. *)
Definition clock_monotone (clk : nat -> Z) : Prop := forall n, clk n <= clk (S n).

(** ** Concrete platform components

    One concrete choice for each interface, used to evaluate the program
    on examples: the 64-bit FNV-1a string hash, the [minstd_rand0] linear
    congruential engine seeded with 1, IEEE binary64 arithmetic, and a
    clock with 100 ns ticks. *)

Module Platform.

Definition fnv_offset_basis : Z := 14695981039346656037.
Definition fnv_prime : Z := 1099511628211.

Fixpoint fnv1a (s : string) (h : Z) : Z :=
  match s with
  | EmptyString => h
  | String c s' =>
      fnv1a s' ((Z.lxor h (Z.of_N (N_of_ascii c)) * fnv_prime) mod two64)
  end.

Definition fnv1a_hash : StringHash.
Proof.
  refine {| std_hash := fun s => fnv1a s fnv_offset_basis |}.
  intros s.
  assert (Hbasis : is_uint64 fnv_offset_basis)
    by (unfold is_uint64, fnv_offset_basis, two64; lia).
  revert Hbasis. generalize fnv_offset_basis as h. revert s.
  induction s as [| c s IH]; intros h Hh; simpl; [exact Hh |].
  apply IH. unfold is_uint64. apply Z.mod_pos_bound. unfold two64. lia.
Defined.

(** [x' = 16807 * x mod (2^31 - 1)]. *)
Definition minstd_next (x : Z) : Z := (16807 * x) mod 2147483647.

Definition minstd_rand0 : RandomEngine.
Proof.
  refine {| Engine := Z;
            default_engine := 1;
            distribution := fun x => (minstd_next x, minstd_next x) |}.
  intros e. simpl. unfold minstd_next, UINT32_MAX.
  pose proof (Z.mod_pos_bound (16807 * e) 2147483647 ltac:(lia)). lia.
Defined.

Definition binary64_of_Z (z : Z) : PrimFloat.float :=
  if z <? 0 then PrimFloat.opp (PrimFloat.of_uint63 (Uint63.of_Z (- z)))
  else PrimFloat.of_uint63 (Uint63.of_Z z).

Definition binary64 : DoubleArith :=
  {| double := PrimFloat.float;
     d_of_Z := binary64_of_Z;
     d_add := PrimFloat.add;
     d_mul := PrimFloat.mul;
     d_div := PrimFloat.div |}.

(** Exact arithmetic on rationals: what [double] approximates. *)
Definition rational : DoubleArith :=
  {| double := Q;
     d_of_Z := inject_Z;
     d_add := Qplus;
     d_mul := Qmult;
     d_div := Qdiv |}.

Definition ticks_100ns : SystemClock := {| period_den := 10000000 |}.

(** A process with an empty store and console whose clock advances by
    [step] ticks between two readings. *)
Definition initial (step : Z) : @Process binary64 :=
  mkProcess ∅ (fun n => step * Z.of_nat n) O [] [].

End Platform.


(** ** Bit-level facts about 32/64-bit values *)

Lemma low32_mod (z : Z) : low32 z = z mod two32.
Proof. unfold low32, two32. change 0xFFFFFFFF with (Z.ones 32). apply Z.land_ones. lia. Qed.

Lemma high32_div (z : Z) : high32 z = z / two32.
Proof. unfold high32, two32. apply Z.shiftr_div_pow2. lia. Qed.

Lemma testbit_uint32_high (d : Z) (n : Z) :
  is_uint32 d -> 32 <= n -> Z.testbit d n = false.
Proof.
  intros [Hlo Hhi] Hn.
  destruct (Z.eq_dec d 0) as [-> | Hne]; [apply Z.bits_0 |].
  apply Z.bits_above_log2; [lia |].
  assert (Z.log2 d < 32); [| lia].
  apply Z.log2_lt_pow2; [lia | exact Hhi].
Qed.

Lemma testbit_high_mask (n : Z) :
  0 <= n -> Z.testbit 0xFFFFFFFF00000000 n = (32 <=? n) && (n <? 64).
Proof.
  intros Hn.
  change 0xFFFFFFFF00000000 with (Z.shiftl (Z.ones 32) 32).
  rewrite Z.shiftl_spec by lia.
  destruct (Z.leb_spec 32 n).
  - rewrite Z.testbit_ones by lia.
    destruct (Z.ltb_spec n 64), (Z.ltb_spec (n - 32) 32), (Z.leb_spec 0 (n - 32));
      simpl; lia || reflexivity.
  - simpl. apply Z.testbit_neg_r. lia.
Qed.

Lemma testbit_low_mask (n : Z) :
  0 <= n -> Z.testbit 0xFFFFFFFF n = (n <? 32).
Proof.
  intros Hn. change 0xFFFFFFFF with (Z.ones 32).
  rewrite Z.testbit_ones by lia.
  destruct (Z.leb_spec 0 n), (Z.ltb_spec n 32); simpl; lia || reflexivity.
Qed.

Lemma shiftl32_uint64 (d : Z) :
  is_uint32 d -> to_uint64 (Z.shiftl d 32) = Z.shiftl d 32.
Proof.
  intros [Hlo Hhi]. unfold to_uint64.
  rewrite Z.shiftl_mul_pow2 by lia.
  apply Z.mod_small. unfold two32, two64 in *. lia.
Qed.

Lemma testbit_uint64_high (h : Z) (n : Z) :
  is_uint64 h -> 64 <= n -> Z.testbit h n = false.
Proof.
  intros [Hlo Hhi] Hn.
  destruct (Z.eq_dec h 0) as [-> | Hne]; [apply Z.bits_0 |].
  apply Z.bits_above_log2; [lia |].
  assert (Z.log2 h < 64); [| lia].
  apply Z.log2_lt_pow2; [lia | exact Hhi].
Qed.

Lemma testbit_to_uint64_shiftl32_low (d : Z) (n : Z) :
  0 <= n < 32 -> Z.testbit (to_uint64 (Z.shiftl d 32)) n = false.
Proof.
  intros Hn. unfold to_uint64, two64.
  rewrite Z.mod_pow2_bits_low by lia.
  rewrite Z.shiftl_spec by lia. apply Z.testbit_neg_r. lia.
Qed.

(** Bitwise equality, one bit at a time, split at bit 32. *)
Ltac bitwise n Hn :=
  apply Z.bits_inj'; intros n Hn;
  repeat first
    [ rewrite Z.land_spec | rewrite Z.lor_spec
    | rewrite Z.shiftr_spec by lia | rewrite Z.shiftl_spec by lia
    | rewrite testbit_high_mask by lia | rewrite testbit_low_mask by lia ].

(** ** The hashers *)

Section HasherFacts.
Context `{StringHash}.

Lemma HasherA_low32 (key : Key) : wf_Key key -> low32 (HasherA key) = Datum key.
Proof.
  intros Hwf. unfold low32, HasherA. bitwise n Hn.
  destruct (Z.ltb_spec n 32) as [Hlt | Hge].
  - replace (32 <=? n) with false by (symmetry; apply Z.leb_gt; lia).
    simpl. rewrite andb_false_r, andb_true_r. reflexivity.
  - rewrite andb_false_r. symmetry. apply testbit_uint32_high; [exact Hwf | lia].
Qed.

Lemma HasherA_high_bits (key : Key) :
  wf_Key key ->
  Z.land (HasherA key) 0xFFFFFFFF00000000
  = Z.land (std_hash (Text key)) 0xFFFFFFFF00000000.
Proof.
  intros Hwf. unfold HasherA. bitwise n Hn.
  destruct (Z.leb_spec 32 n) as [Hge | Hlt]; simpl.
  - rewrite (testbit_uint32_high (Datum key) n Hwf Hge), orb_false_r.
    destruct (Z.testbit (std_hash (Text key)) n), (n <? 64); reflexivity.
  - rewrite !andb_false_r. reflexivity.
Qed.

Lemma HasherA_high32 (key : Key) :
  wf_Key key -> high32 (HasherA key) = high32 (std_hash (Text key)).
Proof.
  intros Hwf. unfold high32, HasherA. bitwise n Hn.
  rewrite (testbit_uint32_high (Datum key) (n + 32) Hwf) by lia.
  rewrite orb_false_r.
  replace (32 <=? n + 32) with true by (symmetry; apply Z.leb_le; lia).
  destruct (Z.ltb_spec (n + 32) 64) as [Hlt | Hge]; simpl.
  - apply andb_true_r.
  - rewrite andb_false_r. symmetry.
    apply testbit_uint64_high; [apply std_hash_range | lia].
Qed.

Lemma HasherB_no_wrap (key : Key) :
  wf_Key key ->
  HasherB key
  = Z.lor (Z.shiftl (Datum key) 32) (Z.land (std_hash (Text key)) 0xFFFFFFFF).
Proof. intros Hwf. unfold HasherB. rewrite shiftl32_uint64 by exact Hwf. reflexivity. Qed.

Lemma HasherB_low32 (key : Key) :
  low32 (HasherB key) = low32 (std_hash (Text key)).
Proof.
  unfold low32, HasherB. bitwise n Hn.
  destruct (Z.ltb_spec n 32) as [Hlt | Hge].
  - rewrite testbit_to_uint64_shiftl32_low by lia. simpl.
    rewrite !andb_true_r. reflexivity.
  - rewrite !andb_false_r. reflexivity.
Qed.

Lemma HasherB_high32 (key : Key) : wf_Key key -> high32 (HasherB key) = Datum key.
Proof.
  intros Hwf. rewrite HasherB_no_wrap by exact Hwf. unfold high32. bitwise n Hn.
  replace (n + 32 - 32) with n by lia.
  replace (n + 32 <? 32) with false by (symmetry; apply Z.ltb_ge; lia).
  rewrite andb_false_r, orb_false_r. reflexivity.
Qed.

End HasherFacts.

(** C10: [k1 == k2] holds exactly when the numeric fields are equal and
    the text fields are equal. *)
Theorem Key_eq_structural (k1 k2 : Key) :
  Key_eq k1 k2 = true <-> Datum k1 = Datum k2 /\ Text k1 = Text k2.
Proof.
  unfold Key_eq. rewrite andb_true_iff, Z.eqb_eq, String.eqb_eq. reflexivity.
Qed.

(** [operator==] decides equality of keys. *)
Lemma Key_eq_true_iff (k1 k2 : Key) : Key_eq k1 k2 = true <-> k1 = k2.
Proof.
  unfold Key_eq. rewrite andb_true_iff, Z.eqb_eq, String.eqb_eq.
  destruct k1, k2; simpl. split.
  - intros [-> ->]. reflexivity.
  - intros [= -> ->]. split; reflexivity.
Qed.

(** C3: [HasherA] returns [(hash(text) & 0xFFFFFFFF00000000) | Datum]; the
    low 32 bits of the result are the numeric field and the bits selected
    by the mask (the high 32 bits) are those of the text hash. *)
Theorem HasherA_numeric_low `{StringHash} (key : Key) :
  wf_Key key ->
  HasherA key = Z.lor (Z.land (std_hash (Text key)) 0xFFFFFFFF00000000) (Datum key)
  /\ low32 (HasherA key) = Datum key
  /\ Z.land (HasherA key) 0xFFFFFFFF00000000
     = Z.land (std_hash (Text key)) 0xFFFFFFFF00000000
  /\ high32 (HasherA key) = high32 (std_hash (Text key)).
Proof.
  intros Hwf. repeat split.
  - apply HasherA_low32, Hwf.
  - apply HasherA_high_bits, Hwf.
  - apply HasherA_high32, Hwf.
Qed.

Lemma HasherA_numeric_low_witness :
  wf_Key (mkKey 42 "x")
  /\ low32 (@HasherA Platform.fnv1a_hash (mkKey 42 "x")) = 42.
Proof.
  assert (Hwf : wf_Key (mkKey 42 "x"))
    by (unfold wf_Key, is_uint32, two32; simpl; lia).
  split; [exact Hwf |].
  exact (proj1 (proj2 (@HasherA_numeric_low Platform.fnv1a_hash (mkKey 42 "x") Hwf))).
Defined.

(** C4: [HasherB] returns [(uint64(Datum) << 32) | (hash(text) & 0xFFFFFFFF)];
    the high 32 bits of the result are the numeric field and the low 32
    bits are the text hash masked to 32 bits. *)
Theorem HasherB_numeric_high `{StringHash} (key : Key) :
  wf_Key key ->
  HasherB key
  = Z.lor (Z.shiftl (Datum key) 32) (Z.land (std_hash (Text key)) 0xFFFFFFFF)
  /\ high32 (HasherB key) = Datum key
  /\ low32 (HasherB key) = Z.land (std_hash (Text key)) 0xFFFFFFFF.
Proof.
  intros Hwf. repeat split.
  - apply HasherB_no_wrap, Hwf.
  - apply HasherB_high32, Hwf.
  - apply HasherB_low32.
Qed.

Lemma HasherB_numeric_high_witness :
  wf_Key (mkKey 42 "x")
  /\ high32 (@HasherB Platform.fnv1a_hash (mkKey 42 "x")) = 42
  /\ low32 (@HasherB Platform.fnv1a_hash (mkKey 42 "x"))
     = Z.land (@std_hash Platform.fnv1a_hash "x") 0xFFFFFFFF.
Proof.
  assert (Hwf : wf_Key (mkKey 42 "x"))
    by (unfold wf_Key, is_uint32, two32; simpl; lia).
  split; [exact Hwf |].
  exact (proj2 (@HasherB_numeric_high Platform.fnv1a_hash (mkKey 42 "x") Hwf)).
Defined.

(** C5: for two keys with the same text field and distinct numeric fields,
    [HasherA] gives distinct hash values and so does [HasherB]. *)
Theorem hashers_injective_in_Datum `{StringHash} (k1 k2 : Key) :
  wf_Key k1 -> wf_Key k2 ->
  Text k1 = Text k2 ->
  Datum k1 <> Datum k2 ->
  HasherA k1 <> HasherA k2 /\ HasherB k1 <> HasherB k2.
Proof.
  intros Hwf1 Hwf2 _ Hne. split; intros Heq; apply Hne.
  - rewrite <- (HasherA_low32 k1 Hwf1), <- (HasherA_low32 k2 Hwf2).
    congruence.
  - rewrite <- (HasherB_high32 k1 Hwf1), <- (HasherB_high32 k2 Hwf2).
    congruence.
Qed.

Lemma hashers_injective_in_Datum_witness :
  @HasherA Platform.fnv1a_hash (mkKey 1 "t") <> @HasherA Platform.fnv1a_hash (mkKey 2 "t")
  /\ @HasherB Platform.fnv1a_hash (mkKey 1 "t") <> @HasherB Platform.fnv1a_hash (mkKey 2 "t").
Proof.
  apply (@hashers_injective_in_Datum Platform.fnv1a_hash (mkKey 1 "t") (mkKey 2 "t")).
  - unfold wf_Key, is_uint32, two32; simpl; lia.
  - unfold wf_Key, is_uint32, two32; simpl; lia.
  - reflexivity.
  - simpl; lia.
Defined.

(** C6: two keys with equal text fields have [HasherB] values with the
    same low 32 bits, namely the low 32 bits of the hash of the text. *)
Theorem HasherB_low32_constant `{StringHash} (k1 k2 : Key) :
  Text k1 = Text k2 ->
  low32 (HasherB k1) = low32 (HasherB k2)
  /\ low32 (HasherB k1) = low32 (std_hash (Text k1)).
Proof.
  intros Htext. rewrite !HasherB_low32, Htext. split; reflexivity.
Qed.

Lemma HasherB_low32_constant_witness :
  low32 (@HasherB Platform.fnv1a_hash (mkKey 7 "same"))
  = low32 (@HasherB Platform.fnv1a_hash (mkKey 4000000000 "same")).
Proof.
  exact (proj1 (@HasherB_low32_constant Platform.fnv1a_hash
                  (mkKey 7 "same") (mkKey 4000000000 "same") eq_refl)).
Defined.

(** ** The population routine *)

Section PopulationFacts.
Context `{RandomEngine}.

Lemma PopulateMap_body_fold (text : string) (map : positive) (indices : list Z)
    (e : Engine) (σ : Store) (w : list (Key * Z)) :
  exists e',
    fold_left (fun s i => PopulateMap_body text map i s) indices (e, σ, w)
    = (e', alter (assign_all (generated text indices e)) map σ,
       w ++ generated text indices e).
Proof.
  revert e σ w. induction indices as [| i rest IH]; intros e σ w; simpl.
  - exists e. rewrite app_nil_r. f_equal. f_equal.
    symmetry. apply alter_id. reflexivity.
  - destruct (distribution e) as [d e1] eqn:Hd.
    destruct (IH e1 (index_assign map (mkKey d text) (i mod 256) σ)
                 (w ++ [(mkKey d text, i mod 256)])) as [e' ->].
    exists e'. unfold index_assign. rewrite alter_alter_eq, <- app_assoc.
    reflexivity.
Qed.

(** The body run on the object at [map]: that object receives the
    generated assignments and every other object is left alone. *)
Lemma PopulateMap_on_spec (numElements : Z) (map : positive) (σ : Store) :
  let ws := generated "all elements share the same text"
                      (seqZ 0 numElements) default_engine in
  PopulateMap_on numElements map σ = (alter (assign_all ws) map σ, ws).
Proof.
  unfold PopulateMap_on, for_range. rewrite Z.sub_0_r.
  destruct (PopulateMap_body_fold "all elements share the same text" map
              (seqZ 0 numElements) default_engine σ []) as [e' ->].
  reflexivity.
Qed.

Lemma parameter_loc_fresh (σ : Store) : σ !! parameter_loc σ = None.
Proof. apply not_elem_of_dom. unfold parameter_loc. apply is_fresh. Qed.

(** A call returns the store it was made in. *)
Lemma PopulateMap_store (numElements : Z) (arg : gmap Key Z) (σ : Store) :
  fst (PopulateMap numElements arg σ) = σ.
Proof.
  unfold PopulateMap. rewrite PopulateMap_on_spec. simpl.
  unfold PopulateMap_enter. rewrite alter_insert_eq.
  apply delete_insert_id, parameter_loc_fresh.
Qed.

(** The assignments a call executes depend on [numElements] only. *)
Lemma PopulateMap_written (numElements : Z) (arg : gmap Key Z) (σ : Store) :
  snd (PopulateMap numElements arg σ)
  = generated "all elements share the same text"
              (seqZ 0 numElements) default_engine.
Proof. unfold PopulateMap. rewrite PopulateMap_on_spec. reflexivity. Qed.

Lemma generated_length (text : string) (indices : list Z) (e : Engine) :
  length (generated text indices e) = length indices.
Proof.
  revert e. induction indices as [| i rest IH]; intros e; simpl; [reflexivity |].
  destruct (distribution e) as [d e1]. simpl. rewrite IH. reflexivity.
Qed.

Lemma generated_keys (text : string) (indices : list Z) (e : Engine) :
  (generated text indices e).*1
  = (fun d => mkKey d text) <$> draws (length indices) e.
Proof.
  revert e. induction indices as [| i rest IH]; intros e; simpl; [reflexivity |].
  destruct (distribution e) as [d e1]. simpl. rewrite IH. reflexivity.
Qed.

(** Every generated key is a well-formed key with the given text, and
    every generated value is a byte. *)
Lemma generated_wf (text : string) (indices : list Z) (e : Engine) :
  Forall (fun kv => wf_Key (fst kv) /\ Text (fst kv) = text /\ 0 <= snd kv < 256)
         (generated text indices e).
Proof.
  revert e. induction indices as [| i rest IH]; intros e; simpl.
  - constructor.
  - pose proof (distribution_range e) as Hrange.
    destruct (distribution e) as [d e1]. simpl in Hrange.
    constructor; [| apply IH]. simpl. split; [| split].
    + unfold wf_Key, is_uint32, two32, UINT32_MAX in *. simpl in *. lia.
    + reflexivity.
    + apply Z.mod_pos_bound. lia.
Qed.

End PopulationFacts.

Lemma assign_all_size (ws : list (Key * Z)) (m : gmap Key Z) :
  NoDup ws.*1 ->
  (forall k, k ∈ ws.*1 -> m !! k = None) ->
  size (assign_all ws m) = (size m + length ws)%nat.
Proof.
  revert m. induction ws as [| [k v] ws IH]; intros m Hnd Hfresh.
  - unfold assign_all. simpl. lia.
  - simpl in Hnd. apply NoDup_cons in Hnd as [Hk Hnd].
    change (assign_all ((k, v) :: ws) m) with (assign_all ws (<[k := v]> m)).
    rewrite IH.
    + rewrite map_size_insert_None by (apply Hfresh; simpl; left). simpl. lia.
    + exact Hnd.
    + intros k' Hin. rewrite lookup_insert_ne.
      * apply Hfresh. simpl. right. exact Hin.
      * intros <-. exact (Hk Hin).
Qed.

Section PopulationSize.
Context `{RandomEngine}.

(** The body run on an empty map object: when the drawn numeric fields are
    pairwise distinct, that object ends with [numElements] entries. *)
Lemma PopulateMap_on_size (numElements : Z) (map : positive) (σ : Store) :
  σ !! map = Some ∅ ->
  NoDup (draws (Z.to_nat numElements) default_engine) ->
  map_size map (fst (PopulateMap_on numElements map σ)) = Z.to_nat numElements.
Proof.
  intros Hmap Hnd. rewrite PopulateMap_on_spec. simpl.
  unfold map_size. rewrite lookup_alter_eq, Hmap. simpl.
  rewrite assign_all_size.
  - rewrite map_size_empty, generated_length, length_seqZ. reflexivity.
  - rewrite generated_keys, length_seqZ.
    apply NoDup_fmap_2; [| exact Hnd].
    intros d1 d2 [= ->]. reflexivity.
  - intros k _. apply lookup_empty.
Qed.

End PopulationSize.

(** C2: a call [PopulateMap(N, m)] leaves the caller's map unchanged: the
    object holds the same entries, and has the same size, after the call
    as before it; the parameter is a copy. *)
Theorem PopulateMap_caller_map_unchanged `{RandomEngine}
    (N : Z) (l : positive) (m : gmap Key Z) (σ : Store) :
  σ !! l = Some m ->
  fst (PopulateMap N m σ) !! l = Some m
  /\ map_size l (fst (PopulateMap N m σ)) = size m
  /\ fst (PopulateMap N m σ) = σ.
Proof.
  intros Hl. unfold map_size. rewrite PopulateMap_store, Hl. repeat split.
Qed.

Lemma PopulateMap_caller_map_unchanged_witness :
  let m : gmap Key Z := {[ mkKey 5 "a" := 9 ]} in
  let σ : Store := {[ 1%positive := m ]} in
  σ !! 1%positive = Some m
  /\ fst (@PopulateMap Platform.minstd_rand0 3 m σ) !! 1%positive = Some m.
Proof.
  intros m σ.
  assert (Hl : σ !! 1%positive = Some m) by reflexivity.
  split; [exact Hl |].
  exact (proj1 (@PopulateMap_caller_map_unchanged Platform.minstd_rand0
                  3 1%positive m σ Hl)).
Defined.

(** C7: two invocations of [PopulateMap] with the same element count
    execute the same sequence of assignments (the same keys with the same
    values), whatever the argument and the store of each call: every call
    starts from a default-constructed engine. *)
Theorem PopulateMap_deterministic `{RandomEngine}
    (n : Z) (m1 m2 : gmap Key Z) (σ1 σ2 : Store) :
  snd (PopulateMap n m1 σ1) = snd (PopulateMap n m2 σ2).
Proof. rewrite !PopulateMap_written. reflexivity. Qed.

(** C1 (the code at [K = 1] with an empty caller map): the single drawn
    numeric field is trivially distinct, the one assignment goes to the
    parameter object, which then has one entry, and the caller's map has
    no entry after the call. *)
Theorem PopulateMap_one_element_caller_map_empty `{RandomEngine} :
  let σ : Store := {[ 1%positive := ∅ ]} in
  NoDup (draws 1 default_engine)
  /\ map_size (parameter_loc σ)
       (fst (PopulateMap_on 1 (parameter_loc σ) (PopulateMap_enter ∅ σ))) = 1%nat
  /\ length (snd (PopulateMap 1 ∅ σ)) = 1%nat
  /\ map_size 1%positive (fst (PopulateMap 1 ∅ σ)) = 0%nat.
Proof.
  intros σ.
  assert (Hnd : NoDup (draws 1 default_engine)).
  { simpl. destruct (distribution default_engine). apply NoDup_singleton. }
  repeat split.
  - exact Hnd.
  - apply (PopulateMap_on_size 1); [| exact Hnd].
    unfold PopulateMap_enter. apply lookup_insert_eq.
  - rewrite PopulateMap_written, generated_length. reflexivity.
  - rewrite PopulateMap_store. reflexivity.
Qed.

(** ** The timing routine *)

Section TimingFacts.
Context `{RandomEngine} `{DoubleArith} `{SystemClock}.

Lemma RunTest_iteration_spec (numElements : Z) (map : positive) (i : Z)
    (durations : list Z) (p : Process) :
  RunTest_iteration numElements map i durations p
  = (durations ++ [clock p (S (clock_reads p)) - clock p (clock_reads p)],
     mkProcess (map_clear map (heap p)) (clock p) (S (S (clock_reads p)))
       ((console p
           ++ [out_string "Iteration "; out_integer i; out_string " started... "])
          ++ [out_string "ended. Duration: ";
              out_double (d_div (d_of_Z (milliseconds_count
                                   (clock p (S (clock_reads p))
                                    - clock p (clock_reads p))))
                                (d_of_Z 1000));
              out_endl])
       (entered p)).
Proof.
  unfold RunTest_iteration, mbind, M_bind, bind, mret, M_ret, ret,
    cout, now, call_PopulateMap, on_heap.
  simpl. rewrite PopulateMap_store. reflexivity.
Qed.

Lemma bind_run {A B : Type} (c : M A) (k : A -> M B) (p : Process) :
  (c ≫= k) p = k (fst (c p)) (snd (c p)).
Proof. unfold mbind, M_bind, bind. destruct (c p). reflexivity. Qed.

Lemma cout_run (items : list Output) (p : Process) :
  snd (cout items p)
  = mkProcess (heap p) (clock p) (clock_reads p) (console p ++ items) (entered p).
Proof. reflexivity. Qed.

Lemma for_each_cons {A : Type} (i : Z) (rest : list Z) (body : Z -> A -> M A)
    (a : A) (p : Process) :
  for_each (i :: rest) body a p
  = for_each rest body (fst (body i a p)) (snd (body i a p)).
Proof.
  simpl. unfold mbind, M_bind, bind. destruct (body i a p). reflexivity.
Qed.

Lemma map_clear_empty (map : positive) (σ : Store) :
  σ !! map = Some ∅ -> map_clear map σ = σ.
Proof.
  intros Hmap. unfold map_clear. apply alter_id.
  intros m Hm. rewrite Hmap in Hm. congruence.
Qed.

(** The loop of [RunTest]: one recorded duration per index, each the
    difference of two successive clock readings. *)
Lemma RunTest_for_each_spec (numElements : Z) (map : positive)
    (indices : list Z) (durations : list Z) (p : Process) :
  let r := for_each indices (RunTest_iteration numElements map) durations p in
  fst r = durations ++ elapsed (clock p) (clock_reads p) (length indices)
  /\ clock (snd r) = clock p
  /\ clock_reads (snd r) = (clock_reads p + 2 * length indices)%nat
  /\ entered (snd r) = entered p
  /\ (heap p !! map = Some ∅ -> heap (snd r) = heap p)
  /\ exists printed, console (snd r) = console p ++ printed.
Proof.
  revert durations p.
  induction indices as [| i rest IH]; intros durations p.
  - simpl. rewrite app_nil_r. repeat split; try lia.
    exists []. rewrite app_nil_r. reflexivity.
  - rewrite for_each_cons, RunTest_iteration_spec.
    cbv zeta in IH |- *. simpl fst. simpl snd.
    match goal with
    | |- context [for_each rest _ ?ds ?q] =>
        destruct (IH ds q) as (Hds & Hclk & Hreads & Hent & Hheap & printed & Hcon)
    end.
    simpl in Hds, Hclk, Hreads, Hent, Hheap, Hcon.
    rewrite Hds, Hclk, Hreads, Hent, Hcon.
    repeat split.
    + rewrite <- app_assoc. reflexivity.
    + simpl. lia.
    + intros Hmap. rewrite Hheap; rewrite map_clear_empty; auto.
    + rewrite <- !app_assoc. eexists. reflexivity.
Qed.

Lemma RunTest_loop_spec (numIterations numElements : Z) (p : Process) :
  let r := RunTest_loop numIterations numElements p in
  let map := fresh (dom (heap p)) in
  fst r = (map, elapsed (clock p) (clock_reads p) (Z.to_nat numIterations))
  /\ heap (snd r) = <[map := ∅]> (heap p)
  /\ clock (snd r) = clock p
  /\ clock_reads (snd r) = (clock_reads p + 2 * Z.to_nat numIterations)%nat
  /\ entered (snd r) = entered p
  /\ exists printed, console (snd r) = console p ++ printed.
Proof.
  cbv zeta. unfold RunTest_loop, mbind, M_bind, bind, mret, M_ret, ret,
    new_map, on_heap, map_reserve.
  simpl.
  match goal with
  | |- context [for_each ?ix ?b ?ds ?q] =>
      pose proof (RunTest_for_each_spec numElements
                    (fresh (dom (heap p))) ix ds q) as Hloop;
      destruct (for_each ix b ds q) as [durations q'] eqn:Hrun
  end.
  cbv zeta in Hloop. simpl in Hloop. rewrite length_seqZ in Hloop.
  destruct Hloop as (Hds & Hclk & Hreads & Hent & Hheap & printed & Hcon).
  simpl. rewrite Hds, Hclk, Hreads, Hent, Hcon.
  repeat split.
  - apply Hheap, lookup_insert_eq.
  - exists printed. reflexivity.
Qed.

(** What a call of [RunTest] returns and how it leaves the process. *)
Lemma RunTest_spec (T : MapTemplate) (h : Hasher)
    (numIterations numElements : Z) (p : Process) :
  let r := RunTest T h numIterations numElements p in
  let total :=
    accumulate (elapsed (clock p) (clock_reads p) (Z.to_nat numIterations))
               (d_of_Z 0) in
  fst r = total
  /\ heap (snd r) = heap p
  /\ clock (snd r) = clock p
  /\ clock_reads (snd r) = (clock_reads p + 2 * Z.to_nat numIterations)%nat
  /\ entered (snd r)
     = entered p ++ [mkInstantiation T h numIterations numElements]
  /\ exists printed,
       console (snd r)
       = console p ++ printed
           ++ [out_string "Total duration: "; out_double total;
               out_string "; Average duration: ";
               out_double (d_div total (d_of_Z numIterations)); out_endl].
Proof.
  cbv zeta. unfold RunTest, mbind, M_bind, bind, enter.
  match goal with
  | |- context [RunTest_loop _ _ ?q] =>
      pose proof (RunTest_loop_spec numIterations numElements q) as Hloop;
      destruct (RunTest_loop numIterations numElements q) as [[map ds] q'] eqn:Hrun
  end.
  cbv zeta in Hloop. simpl in Hloop.
  destruct Hloop as (Hres & Hheap & Hclk & Hreads & Hent & printed & Hcon).
  injection Hres as -> ->.
  unfold RunTest_report, mbind, M_bind, bind, mret, M_ret, ret, cout, on_heap.
  simpl. rewrite Hheap, Hclk, Hreads, Hent, Hcon.
  repeat split.
  - apply delete_insert_id, not_elem_of_dom, is_fresh.
  - exists printed. rewrite <- app_assoc. reflexivity.
Qed.

End TimingFacts.


(** In exact arithmetic [std::accumulate] over the recorded durations is
    their sum in ticks, expressed in seconds. *)
Lemma duration_plus_exact (clk : SystemClock) (acc : Q) (s d : Z) :
  0 < period_den ->
  Qeq acc (Qdiv (inject_Z s) (inject_Z period_den)) ->
  Qeq (@duration_plus Platform.rational clk acc d)
      (Qdiv (inject_Z (s + d)) (inject_Z period_den)).
Proof.
  intros Hden Hacc. unfold duration_plus, ticks_to_seconds, seconds_to_ticks.
  assert (Hnz : ~ Qeq (inject_Z period_den) 0).
  { intros Hq. apply (inject_Z_injective period_den 0) in Hq. lia. }
  destruct (Z.eqb_spec period_den 1) as [Hone | Hne]; simpl.
  - rewrite Hacc, Hone, inject_Z_plus. field.
  - rewrite Hacc, inject_Z_plus. field. exact Hnz.
Qed.

Lemma accumulate_exact_from (clk : SystemClock) (durations : list Z)
    (acc : Q) (s : Z) :
  0 < period_den ->
  Qeq acc (Qdiv (inject_Z s) (inject_Z period_den)) ->
  Qeq (@accumulate Platform.rational clk durations acc)
      (Qdiv (inject_Z (s + total_ticks durations)) (inject_Z period_den)).
Proof.
  intros Hden. revert acc s. unfold accumulate.
  induction durations as [| d ds IH]; intros acc s Hacc; simpl.
  - rewrite Z.add_0_r. exact Hacc.
  - rewrite (IH _ (s + d)).
    + rewrite Z.add_assoc. reflexivity.
    + apply duration_plus_exact; assumption.
Qed.

Lemma accumulate_exact (clk : SystemClock) (durations : list Z) :
  0 < period_den ->
  Qeq (@accumulate Platform.rational clk durations (inject_Z 0))
      (Qdiv (inject_Z (total_ticks durations)) (inject_Z period_den)).
Proof.
  intros Hden. apply (accumulate_exact_from clk durations (inject_Z 0) 0 Hden).
  unfold Qdiv. rewrite Qmult_0_l. reflexivity.
Qed.



(** C9: [_tmain] ignores [argc] and [argv]; it enters [RunTest] four
    times, once for each combination of map template and hasher, each time
    with 5 iterations and 20000 elements; after the four runs it prints,
    for each hasher, the two totals and the ratio of the boost total to the
    standard total; it returns 0. *)
Theorem tmain_runs_four_tests `{RandomEngine} `{DoubleArith} `{SystemClock}
    (argc : Z) (argv : list string) (p : Process) :
  let r1 := RunTest boost_unordered_map Hasher_A 5 20000 p in
  let r2 := RunTest std_unordered_map Hasher_A 5 20000 (snd r1) in
  let r3 := RunTest boost_unordered_map Hasher_B 5 20000 (snd r2) in
  let r4 := RunTest std_unordered_map Hasher_B 5 20000 (snd r3) in
  let final := _tmain argc argv p in
  fst final = 0
  /\ entered (snd final)
     = entered p ++ [mkInstantiation boost_unordered_map Hasher_A 5 20000;
                     mkInstantiation std_unordered_map Hasher_A 5 20000;
                     mkInstantiation boost_unordered_map Hasher_B 5 20000;
                     mkInstantiation std_unordered_map Hasher_B 5 20000]
  /\ console (snd final)
     = console (snd r4)
         ++ [out_string "Number of iterations "; out_integer 5; out_endl;
             out_string "Number of elements handled per iteration ";
             out_integer 20000; out_endl;
             out_string "std::unordered_map runtime - HasherA: ";
             out_double (fst r2); out_endl;
             out_string "boost::unordered_map runtime - HasherA: ";
             out_double (fst r1); out_endl;
             out_string "Ratio (boost/std): ";
             out_double (d_div (fst r1) (fst r2)); out_endl;
             out_string "std::unordered_map runtime - HasherB: ";
             out_double (fst r4); out_endl;
             out_string "boost::unordered_map runtime - HasherB: ";
             out_double (fst r3); out_endl;
             out_string "Ratio (boost/std): ";
             out_double (d_div (fst r3) (fst r4)); out_endl]
  /\ (forall (argc' : Z) (argv' : list string), _tmain argc' argv' p = final).
Proof.
  cbv zeta.
  pose proof (RunTest_spec boost_unordered_map Hasher_A 5 20000 p) as S1.
  destruct (RunTest boost_unordered_map Hasher_A 5 20000 p) as [d1 p1] eqn:E1.
  pose proof (RunTest_spec std_unordered_map Hasher_A 5 20000 p1) as S2.
  destruct (RunTest std_unordered_map Hasher_A 5 20000 p1) as [d2 p2] eqn:E2.
  pose proof (RunTest_spec boost_unordered_map Hasher_B 5 20000 p2) as S3.
  destruct (RunTest boost_unordered_map Hasher_B 5 20000 p2) as [d3 p3] eqn:E3.
  pose proof (RunTest_spec std_unordered_map Hasher_B 5 20000 p3) as S4.
  destruct (RunTest std_unordered_map Hasher_B 5 20000 p3) as [d4 p4] eqn:E4.
  cbv zeta in S1, S2, S3, S4. cbn [fst snd] in *.
  destruct S1 as (_ & _ & _ & _ & Hent1 & _).
  destruct S2 as (_ & _ & _ & _ & Hent2 & _).
  destruct S3 as (_ & _ & _ & _ & Hent3 & _).
  destruct S4 as (_ & _ & _ & _ & Hent4 & _).
  cbv beta zeta delta [_tmain].
  do 4 (rewrite bind_run; cbv beta).
  rewrite E1; cbn [fst snd]. rewrite E2; cbn [fst snd].
  rewrite E3; cbn [fst snd]. rewrite E4; cbn [fst snd].
  repeat (rewrite bind_run, cout_run; cbv beta;
          cbn [heap clock clock_reads console entered]).
  repeat split.
  - rewrite Hent4, Hent3, Hent2, Hent1, <- !app_assoc. reflexivity.
  - rewrite <- !app_assoc. reflexivity.
Qed.

(** ** Further properties of the key and the hashers *)

Lemma log2_uint64 (a : Z) : is_uint64 a -> Z.log2 a < 64.
Proof.
  intros [Hlo Hhi]. destruct (Z.eq_dec a 0) as [-> | Hne]; [simpl; lia |].
  apply Z.log2_lt_pow2; [lia | exact Hhi].
Qed.

Lemma lor_uint64 (a b : Z) : is_uint64 a -> is_uint64 b -> is_uint64 (Z.lor a b).
Proof.
  intros Ha Hb. pose proof (log2_uint64 a Ha) as Hla.
  pose proof (log2_uint64 b Hb) as Hlb.
  destruct Ha as [Ha _], Hb as [Hb _].
  assert (Hnn : 0 <= Z.lor a b) by (apply Z.lor_nonneg; split; assumption).
  split; [exact Hnn |].
  destruct (Z.eq_dec (Z.lor a b) 0) as [-> | Hne]; [unfold two64; lia |].
  apply Z.log2_lt_pow2; [lia |].
  rewrite Z.log2_lor by assumption. lia.
Qed.

Lemma land_uint64_r (h mask : Z) : 0 <= h -> is_uint64 mask -> is_uint64 (Z.land h mask).
Proof.
  intros Hh [Hm Hlt].
  assert (Hnn : 0 <= Z.land h mask) by (apply Z.land_nonneg; left; exact Hh).
  split; [exact Hnn |].
  destruct (Z.eq_dec (Z.land h mask) 0) as [-> | Hne]; [unfold two64; lia |].
  apply Z.log2_lt_pow2; [lia |].
  pose proof (Z.log2_land h mask Hh Hm) as Hlog.
  pose proof (log2_uint64 mask (conj Hm Hlt)). lia.
Qed.

Lemma land_high_mask (h : Z) :
  is_uint64 h -> Z.land h 0xFFFFFFFF00000000 = Z.shiftl (high32 h) 32.
Proof.
  intros Hh. unfold high32. bitwise n Hn.
  destruct (Z.leb_spec 32 n) as [Hge | Hlt]; simpl.
  - rewrite Z.shiftr_spec by lia. replace (n - 32 + 32) with n by lia.
    destruct (Z.ltb_spec n 64) as [Hlt | Hge64].
    + apply andb_true_r.
    + rewrite andb_false_r. symmetry. apply testbit_uint64_high; assumption.
  - rewrite andb_false_r. symmetry. apply Z.testbit_neg_r. lia.
Qed.

Lemma mod_pow2_low32 (x k : Z) :
  0 <= k <= 32 -> x mod 2 ^ k = low32 x mod 2 ^ k.
Proof.
  intros Hk. rewrite low32_mod. unfold two32. symmetry.
  apply Z.mod_mod_divide. exists (2 ^ (32 - k)).
  rewrite <- Z.pow_add_r by lia. f_equal. lia.
Qed.

(** X1: [operator==] is an equivalence relation on keys: reflexive,
    symmetric and transitive. *)
Theorem Key_eq_equivalence :
  (forall k, Key_eq k k = true)
  /\ (forall k1 k2, Key_eq k1 k2 = Key_eq k2 k1)
  /\ (forall k1 k2 k3,
        Key_eq k1 k2 = true -> Key_eq k2 k3 = true -> Key_eq k1 k3 = true).
Proof.
  split; [| split].
  - intros k. apply Key_eq_true_iff. reflexivity.
  - intros k1 k2. unfold Key_eq.
    rewrite (Z.eqb_sym (Datum k1)), (String.eqb_sym (Text k1)). reflexivity.
  - intros k1 k2 k3 H12 H23. apply Key_eq_true_iff.
    apply Key_eq_true_iff in H12, H23. congruence.
Qed.

(** X2: keys that compare equal with [operator==] have the same [HasherA]
    value and the same [HasherB] value, as a hash container requires. *)
Theorem Key_eq_same_hash `{StringHash} (k1 k2 : Key) :
  Key_eq k1 k2 = true -> HasherA k1 = HasherA k2 /\ HasherB k1 = HasherB k2.
Proof.
  intros Heq. apply Key_eq_true_iff in Heq as ->. split; reflexivity.
Qed.

Lemma Key_eq_same_hash_witness :
  Key_eq (mkKey 42 "x") (mkKey 42 "x") = true
  /\ @HasherA Platform.fnv1a_hash (mkKey 42 "x")
     = @HasherA Platform.fnv1a_hash (mkKey 42 "x").
Proof.
  assert (Heq : Key_eq (mkKey 42 "x") (mkKey 42 "x") = true) by reflexivity.
  split; [exact Heq |].
  exact (proj1 (@Key_eq_same_hash Platform.fnv1a_hash _ _ Heq)).
Defined.

(** X3: two well-formed keys have the same [HasherA] value exactly when
    their numeric fields are equal and the hashes of their texts agree on
    the high 32 bits: [HasherA] drops the low half of the text hash. *)
Theorem HasherA_collision_iff `{StringHash} (k1 k2 : Key) :
  wf_Key k1 -> wf_Key k2 ->
  (HasherA k1 = HasherA k2
   <-> Datum k1 = Datum k2
       /\ high32 (std_hash (Text k1)) = high32 (std_hash (Text k2))).
Proof.
  intros Hwf1 Hwf2. split.
  - intros Heq. split.
    + rewrite <- (HasherA_low32 k1 Hwf1), <- (HasherA_low32 k2 Hwf2). congruence.
    + rewrite <- (HasherA_high32 k1 Hwf1), <- (HasherA_high32 k2 Hwf2). congruence.
  - intros [Hd Hh]. unfold HasherA.
    rewrite !land_high_mask by apply std_hash_range. rewrite Hd, Hh. reflexivity.
Qed.

Lemma HasherA_collision_iff_witness :
  @HasherA Platform.fnv1a_hash (mkKey 7 "a") = @HasherA Platform.fnv1a_hash (mkKey 8 "b")
  <-> 7 = 8 /\ high32 (@std_hash Platform.fnv1a_hash "a")
               = high32 (@std_hash Platform.fnv1a_hash "b").
Proof.
  apply (@HasherA_collision_iff Platform.fnv1a_hash (mkKey 7 "a") (mkKey 8 "b")).
  - unfold wf_Key, is_uint32, two32; simpl; lia.
  - unfold wf_Key, is_uint32, two32; simpl; lia.
Defined.

(** X4: two well-formed keys have the same [HasherB] value exactly when
    their numeric fields are equal and the hashes of their texts agree on
    the low 32 bits: [HasherB] drops the high half of the text hash. *)
Theorem HasherB_collision_iff `{StringHash} (k1 k2 : Key) :
  wf_Key k1 -> wf_Key k2 ->
  (HasherB k1 = HasherB k2
   <-> Datum k1 = Datum k2
       /\ low32 (std_hash (Text k1)) = low32 (std_hash (Text k2))).
Proof.
  intros Hwf1 Hwf2. split.
  - intros Heq. split.
    + rewrite <- (HasherB_high32 k1 Hwf1), <- (HasherB_high32 k2 Hwf2). congruence.
    + rewrite <- (HasherB_low32 k1), <- (HasherB_low32 k2). congruence.
  - intros [Hd Hl]. rewrite !HasherB_no_wrap by assumption.
    unfold low32 in Hl. rewrite Hd, Hl. reflexivity.
Qed.

Lemma HasherB_collision_iff_witness :
  @HasherB Platform.fnv1a_hash (mkKey 7 "a") = @HasherB Platform.fnv1a_hash (mkKey 8 "b")
  <-> 7 = 8 /\ low32 (@std_hash Platform.fnv1a_hash "a")
               = low32 (@std_hash Platform.fnv1a_hash "b").
Proof.
  apply (@HasherB_collision_iff Platform.fnv1a_hash (mkKey 7 "a") (mkKey 8 "b")).
  - unfold wf_Key, is_uint32, two32; simpl; lia.
  - unfold wf_Key, is_uint32, two32; simpl; lia.
Defined.

(** X5: the value of each hasher on a well-formed key fits in 64 bits, so
    returning it as a [std::size_t] loses nothing. *)
Theorem hashers_fit_size_t `{StringHash} (key : Key) :
  wf_Key key -> is_uint64 (HasherA key) /\ is_uint64 (HasherB key).
Proof.
  intros Hwf. pose proof (std_hash_range (Text key)) as Hh. split.
  - unfold HasherA. apply lor_uint64.
    + apply land_uint64_r; [apply Hh |]. unfold is_uint64, two64. lia.
    + destruct Hwf as [Hlo Hhi]. unfold is_uint64, two64, two32 in *. lia.
  - unfold HasherB. apply lor_uint64.
    + unfold to_uint64, is_uint64. apply Z.mod_pos_bound. unfold two64. lia.
    + apply land_uint64_r; [apply Hh |]. unfold is_uint64, two64. lia.
Qed.

Lemma hashers_fit_size_t_witness :
  is_uint64 (@HasherA Platform.fnv1a_hash (mkKey 4294967295 "x"))
  /\ is_uint64 (@HasherB Platform.fnv1a_hash (mkKey 4294967295 "x")).
Proof.
  apply (@hashers_fit_size_t Platform.fnv1a_hash (mkKey 4294967295 "x")).
  unfold wf_Key, is_uint32, two32; simpl; lia.
Defined.

(** X6: reduced modulo a power of two up to [2^32] (a bucket count), the
    [HasherA] value of a well-formed key is its numeric field reduced the
    same way. *)
Theorem HasherA_bucket `{StringHash} (key : Key) (k : Z) :
  wf_Key key -> 0 <= k <= 32 ->
  HasherA key mod 2 ^ k = Datum key mod 2 ^ k.
Proof.
  intros Hwf Hk. rewrite (mod_pow2_low32 _ k Hk), HasherA_low32 by exact Hwf.
  reflexivity.
Qed.

Lemma HasherA_bucket_witness :
  @HasherA Platform.fnv1a_hash (mkKey 1000 "x") mod 2 ^ 8 = 1000 mod 2 ^ 8.
Proof.
  apply (@HasherA_bucket Platform.fnv1a_hash (mkKey 1000 "x") 8).
  - unfold wf_Key, is_uint32, two32; simpl; lia.
  - lia.
Defined.

(** X7: reduced modulo a power of two up to [2^32], the [HasherB] value of
    a key is the hash of its text reduced the same way; two keys with the
    same text therefore fall into the same bucket of such a table whatever
    their numeric fields are. *)
Theorem HasherB_bucket `{StringHash} (k1 k2 : Key) (k : Z) :
  0 <= k <= 32 ->
  Text k1 = Text k2 ->
  HasherB k1 mod 2 ^ k = std_hash (Text k1) mod 2 ^ k
  /\ HasherB k1 mod 2 ^ k = HasherB k2 mod 2 ^ k.
Proof.
  intros Hk Ht.
  rewrite (mod_pow2_low32 (HasherB k1) k Hk), (mod_pow2_low32 (HasherB k2) k Hk).
  rewrite !HasherB_low32, <- Ht, <- (mod_pow2_low32 _ k Hk). split; reflexivity.
Qed.

Lemma HasherB_bucket_witness :
  @HasherB Platform.fnv1a_hash (mkKey 1 "t") mod 2 ^ 16
  = @HasherB Platform.fnv1a_hash (mkKey 99999 "t") mod 2 ^ 16.
Proof.
  refine (proj2 (@HasherB_bucket Platform.fnv1a_hash
                   (mkKey 1 "t") (mkKey 99999 "t") 16 _ eq_refl)).
  lia.
Defined.

(** ** Further properties of the population routine *)

Lemma assign_all_app (ws1 ws2 : list (Key * Z)) (m : gmap Key Z) :
  assign_all (ws1 ++ ws2) m = assign_all ws2 (assign_all ws1 m).
Proof. unfold assign_all. apply fold_left_app. Qed.

Lemma assign_all_lookup_notin (ws : list (Key * Z)) (m : gmap Key Z) (k : Key) :
  k ∉ ws.*1 -> assign_all ws m !! k = m !! k.
Proof.
  revert m. induction ws as [| [k' v'] ws IH]; intros m Hk; [reflexivity |].
  change (assign_all ((k', v') :: ws) m) with (assign_all ws (<[k' := v']> m)).
  simpl in Hk. apply not_elem_of_cons in Hk as [Hne Hk].
  rewrite IH by exact Hk. apply lookup_insert_ne. congruence.
Qed.

Lemma assign_all_lookup_last (ws1 ws2 : list (Key * Z)) (m : gmap Key Z)
    (k : Key) (v : Z) :
  k ∉ ws2.*1 -> assign_all (ws1 ++ (k, v) :: ws2) m !! k = Some v.
Proof.
  intros Hk. rewrite assign_all_app.
  change (assign_all ((k, v) :: ws2) (assign_all ws1 m))
    with (assign_all ws2 (<[k := v]> (assign_all ws1 m))).
  rewrite assign_all_lookup_notin by exact Hk. apply lookup_insert_eq.
Qed.

Lemma assign_all_size_bounds (ws : list (Key * Z)) (m : gmap Key Z) :
  (size m <= size (assign_all ws m) <= size m + length ws)%nat.
Proof.
  revert m. induction ws as [| [k v] ws IH]; intros m.
  - unfold assign_all. simpl. lia.
  - change (assign_all ((k, v) :: ws) m) with (assign_all ws (<[k := v]> m)).
    specialize (IH (<[k := v]> m)). rewrite map_size_insert in IH.
    simpl. destruct (m !! k); simpl in IH; lia.
Qed.

Section PopulationMore.
Context `{RandomEngine}.

Lemma generated_zip (text : string) (indices : list Z) (e : Engine) :
  generated text indices e
  = zip_with (fun i d => (mkKey d text, i mod 256)) indices
             (draws (length indices) e).
Proof.
  revert e. induction indices as [| i rest IH]; intros e; simpl; [reflexivity |].
  destruct (distribution e) as [d e1]. simpl. rewrite IH. reflexivity.
Qed.

Lemma draws_length (n : nat) (e : Engine) : length (draws n e) = n.
Proof.
  revert e. induction n as [| n IH]; intros e; simpl; [reflexivity |].
  destruct (distribution e) as [d e1]. simpl. rewrite IH. reflexivity.
Qed.

Lemma draws_range (n : nat) (e : Engine) : Forall is_uint32 (draws n e).
Proof.
  revert e. induction n as [| n IH]; intros e; simpl; [constructor |].
  pose proof (distribution_range e) as Hrange.
  destruct (distribution e) as [d e1]. simpl in Hrange.
  constructor; [| apply IH].
  unfold is_uint32, two32, UINT32_MAX in *. simpl. lia.
Qed.

Lemma PopulateMap_on_lookup (numElements : Z) (map : positive) (σ : Store)
    (m : gmap Key Z) :
  σ !! map = Some m ->
  fst (PopulateMap_on numElements map σ) !! map
  = Some (assign_all (snd (PopulateMap_on numElements map σ)) m).
Proof.
  intros Hmap. rewrite PopulateMap_on_spec. simpl.
  rewrite lookup_alter_eq, Hmap. reflexivity.
Qed.

Lemma PopulateMap_on_keys (numElements : Z) (map : positive) (σ : Store) :
  (snd (PopulateMap_on numElements map σ)).*1
  = (fun d => mkKey d "all elements share the same text")
      <$> draws (Z.to_nat numElements) default_engine.
Proof.
  rewrite PopulateMap_on_spec. simpl. rewrite generated_keys, length_seqZ.
  reflexivity.
Qed.

End PopulationMore.

(** X8: a call of [PopulateMap] executes exactly [numElements] assignments
    (none when [numElements] is 0); the assignment of loop index [i] has as
    key the [i]-th drawn number paired with the constant text, and as value
    [i mod 256]. *)
Theorem PopulateMap_assignments `{RandomEngine}
    (numElements : Z) (arg : gmap Key Z) (σ : Store) :
  snd (PopulateMap numElements arg σ)
  = zip_with (fun i d => (mkKey d "all elements share the same text", i mod 256))
             (seqZ 0 numElements)
             (draws (Z.to_nat numElements) default_engine)
  /\ length (snd (PopulateMap numElements arg σ)) = Z.to_nat numElements.
Proof.
  rewrite PopulateMap_written. split.
  - rewrite generated_zip, length_seqZ. reflexivity.
  - rewrite generated_length, length_seqZ. reflexivity.
Qed.

(** X9: the loop of [PopulateMap] touches only the map object it is run
    on: every other object of the store is as before. *)
Theorem PopulateMap_on_other_objects `{RandomEngine}
    (numElements : Z) (map l : positive) (σ : Store) :
  l <> map ->
  fst (PopulateMap_on numElements map σ) !! l = σ !! l.
Proof.
  intros Hne. rewrite PopulateMap_on_spec. simpl.
  apply lookup_alter_ne. congruence.
Qed.

Lemma PopulateMap_on_other_objects_witness :
  let σ : Store := {[ 1%positive := ∅; 2%positive := {[ mkKey 5 "a" := 9 ]} ]} in
  fst (@PopulateMap_on Platform.minstd_rand0 3 1%positive σ) !! 2%positive
  = σ !! 2%positive.
Proof.
  intros σ.
  apply (@PopulateMap_on_other_objects Platform.minstd_rand0 3 1%positive 2%positive σ).
  lia.
Defined.

(** X10: after the loop of [PopulateMap] has run on a map object, looking
    up a key that was never assigned gives what the map held before, and
    looking up an assigned key gives the value of the last assignment to
    that key (last write wins). *)
Theorem PopulateMap_on_last_write_wins `{RandomEngine}
    (numElements : Z) (map : positive) (σ : Store) (m : gmap Key Z) :
  σ !! map = Some m ->
  exists m',
    fst (PopulateMap_on numElements map σ) !! map = Some m'
    /\ (forall k, k ∉ (snd (PopulateMap_on numElements map σ)).*1 ->
                  m' !! k = m !! k)
    /\ (forall ws1 k v ws2,
          snd (PopulateMap_on numElements map σ) = ws1 ++ (k, v) :: ws2 ->
          k ∉ ws2.*1 ->
          m' !! k = Some v).
Proof.
  intros Hmap. eexists. split; [apply PopulateMap_on_lookup, Hmap |]. split.
  - intros k Hk. apply assign_all_lookup_notin, Hk.
  - intros ws1 k v ws2 -> Hk. apply assign_all_lookup_last, Hk.
Qed.

Lemma PopulateMap_on_last_write_wins_witness :
  let σ : Store := {[ 1%positive := ∅ ]} in
  exists m',
    fst (@PopulateMap_on Platform.minstd_rand0 3 1%positive σ) !! 1%positive = Some m'
    /\ m' !! mkKey 16807 "all elements share the same text" = Some 0.
Proof.
  intros σ.
  destruct (@PopulateMap_on_last_write_wins Platform.minstd_rand0
              3 1%positive σ ∅ eq_refl) as (m' & Hm' & _ & Hlast).
  exists m'. split; [exact Hm' |].
  apply (Hlast [] _ _
           [(mkKey 282475249 "all elements share the same text", 1);
            (mkKey 1622650073 "all elements share the same text", 2)]).
  - reflexivity.
  - simpl. intros Hin. apply elem_of_cons in Hin as [Heq | Hin]; [discriminate |].
    apply elem_of_cons in Hin as [Heq | Hin]; [discriminate |].
    apply elem_of_nil in Hin. exact Hin.
Defined.

(** X11: the loop of [PopulateMap] never removes an entry and adds at most
    one entry per iteration: the size of the map it runs on grows by at
    most [numElements]. *)
Theorem PopulateMap_on_size_bounds `{RandomEngine}
    (numElements : Z) (map : positive) (σ : Store) (m : gmap Key Z) :
  σ !! map = Some m ->
  (size m <= map_size map (fst (PopulateMap_on numElements map σ))
   <= size m + Z.to_nat numElements)%nat.
Proof.
  intros Hmap. unfold map_size.
  rewrite (PopulateMap_on_lookup _ _ _ _ Hmap). simpl.
  pose proof (assign_all_size_bounds
                (snd (PopulateMap_on numElements map σ)) m) as Hb.
  rewrite PopulateMap_on_spec in Hb |- *. simpl in Hb |- *.
  rewrite generated_length, length_seqZ in Hb. exact Hb.
Qed.

Lemma PopulateMap_on_size_bounds_witness :
  let m : gmap Key Z := {[ mkKey 5 "a" := 9 ]} in
  let σ : Store := {[ 1%positive := m ]} in
  (size m <= map_size 1%positive (fst (@PopulateMap_on Platform.minstd_rand0 3 1%positive σ))
   <= size m + Z.to_nat 3)%nat.
Proof.
  intros m σ.
  apply (@PopulateMap_on_size_bounds Platform.minstd_rand0 3 1%positive σ m).
  reflexivity.
Defined.

(** X12: when the drawn numbers are pairwise distinct and none of the
    drawn keys is in the map already, the loop of [PopulateMap] adds
    exactly [numElements] entries to the map it runs on. *)
Theorem PopulateMap_on_adds_all `{RandomEngine}
    (numElements : Z) (map : positive) (σ : Store) (m : gmap Key Z) :
  σ !! map = Some m ->
  NoDup (draws (Z.to_nat numElements) default_engine) ->
  Forall (fun d => m !! mkKey d "all elements share the same text" = None)
         (draws (Z.to_nat numElements) default_engine) ->
  map_size map (fst (PopulateMap_on numElements map σ))
  = (size m + Z.to_nat numElements)%nat.
Proof.
  intros Hmap Hnd Hfresh. unfold map_size.
  rewrite (PopulateMap_on_lookup _ _ _ _ Hmap). simpl.
  rewrite assign_all_size.
  - rewrite PopulateMap_on_spec. simpl.
    rewrite generated_length, length_seqZ. reflexivity.
  - rewrite PopulateMap_on_keys.
    apply NoDup_fmap_2; [| exact Hnd]. intros d1 d2 [= ->]. reflexivity.
  - intros k Hk. rewrite PopulateMap_on_keys in Hk.
    apply list_elem_of_fmap in Hk as (d & -> & Hd).
    rewrite Forall_forall in Hfresh. apply Hfresh, Hd.
Qed.

Lemma PopulateMap_on_adds_all_witness :
  let m : gmap Key Z := {[ mkKey 5 "a" := 9 ]} in
  let σ : Store := {[ 1%positive := m ]} in
  map_size 1%positive (fst (@PopulateMap_on Platform.minstd_rand0 3 1%positive σ))
  = (size m + Z.to_nat 3)%nat.
Proof.
  intros m σ.
  apply (@PopulateMap_on_adds_all Platform.minstd_rand0 3 1%positive σ m).
  - reflexivity.
  - apply (bool_decide_unpack _). vm_compute. exact I.
  - apply (bool_decide_unpack _). vm_compute. exact I.
Defined.

(** X13: when the drawn numbers are pairwise distinct, the keys that a call
    of [PopulateMap] assigns have pairwise distinct [HasherA] values and
    pairwise distinct [HasherB] values. *)
Theorem PopulateMap_keys_hash_distinct `{RandomEngine} `{StringHash}
    (numElements : Z) (arg : gmap Key Z) (σ : Store) :
  NoDup (draws (Z.to_nat numElements) default_engine) ->
  NoDup (HasherA <$> (snd (PopulateMap numElements arg σ)).*1)
  /\ NoDup (HasherB <$> (snd (PopulateMap numElements arg σ)).*1).
Proof.
  intros Hnd. rewrite PopulateMap_written, generated_keys, length_seqZ.
  rewrite <- !list_fmap_compose.
  pose proof (draws_range (Z.to_nat numElements) default_engine) as Hrange.
  rewrite Forall_forall in Hrange.
  split; (apply NoDup_fmap_2_strong; [| exact Hnd]); intros d1 d2 H1 H2 Heq;
    simpl in Heq.
  - apply (f_equal low32) in Heq.
    rewrite !HasherA_low32 in Heq by (apply Hrange; assumption). exact Heq.
  - apply (f_equal high32) in Heq.
    rewrite !HasherB_high32 in Heq by (apply Hrange; assumption). exact Heq.
Qed.

Lemma PopulateMap_keys_hash_distinct_witness :
  NoDup (@HasherA Platform.fnv1a_hash
           <$> (snd (@PopulateMap Platform.minstd_rand0 3 ∅ ∅)).*1).
Proof.
  refine (proj1 (@PopulateMap_keys_hash_distinct Platform.minstd_rand0
                   Platform.fnv1a_hash 3 ∅ ∅ _)).
  apply (bool_decide_unpack _). vm_compute. exact I.
Defined.

(** X14: every key that a call of [PopulateMap] assigns carries the
    constant text, so all their [HasherB] values have the same low 32
    bits, those of the hash of that text. *)
Theorem PopulateMap_keys_HasherB_low_bits `{RandomEngine} `{StringHash}
    (numElements : Z) (arg : gmap Key Z) (σ : Store) :
  Forall (fun key =>
            Text key = "all elements share the same text"%string
            /\ low32 (HasherB key)
               = low32 (std_hash "all elements share the same text"))
         (snd (PopulateMap numElements arg σ)).*1.
Proof.
  rewrite PopulateMap_written, generated_keys.
  apply Forall_fmap, Forall_forall. intros d _. simpl. split; [reflexivity |].
  apply HasherB_low32.
Qed.

(** ** Further properties of the timing routine *)

(** The conversion that the code applies to a duration gives its whole
    milliseconds, rounded towards zero. *)
Lemma milliseconds_count_whole `{SystemClock} (d : Z) :
  milliseconds_count d = whole_milliseconds d.
Proof.
  unfold milliseconds_count, whole_milliseconds.
  destruct (Z.eq_dec period_den 0) as [Hz | Hnz].
  - rewrite Hz. change (Z.gcd 1000 0) with 1000. change (0 / 1000) with 0.
    destruct (d * (1000 / 1000)), (d * 1000); reflexivity.
  - set (g := Z.gcd 1000 period_den).
    assert (Hg : 0 < g).
    { pose proof (Z.gcd_nonneg 1000 period_den) as Hnn.
      destruct (Z.eq_dec g 0) as [Hg0 | Hg0]; [| unfold g in *; lia].
      apply Z.gcd_eq_0_l in Hg0. lia. }
    destruct (Z.gcd_divide_l 1000 period_den) as [a Ha].
    destruct (Z.gcd_divide_r 1000 period_den) as [b Hb].
    fold g in Ha, Hb.
    assert (Hb0 : b <> 0) by (intros ->; lia).
    rewrite Ha at 1. rewrite Hb at 1.
    rewrite !Z.div_mul by lia.
    rewrite Ha at 1. rewrite Hb at 1.
    rewrite Z.mul_assoc. apply eq_sym, Z.quot_mul_cancel_r; lia.
Qed.

(** Rounding towards zero: for a non-negative duration and a positive
    tick rate the whole milliseconds are the largest count of milliseconds
    not exceeding the duration. *)
Lemma whole_milliseconds_floor `{SystemClock} (d : Z) :
  0 < period_den -> 0 <= d ->
  whole_milliseconds d * period_den <= d * 1000
  < (whole_milliseconds d + 1) * period_den.
Proof.
  intros Hden Hd. unfold whole_milliseconds.
  rewrite Z.quot_div_nonneg by lia.
  assert (Hnz : period_den <> 0) by lia.
  pose proof (Z.div_mod (d * 1000) period_den Hnz) as Hdm.
  pose proof (Z.mod_pos_bound (d * 1000) period_den Hden) as Hm.
  nia.
Qed.

Section TimingMore.
Context `{RandomEngine} `{DoubleArith} `{SystemClock}.

(** The loop of [RunTest] started with an empty map object. *)
Lemma RunTest_for_each_run (numElements : Z) (map : positive)
    (indices : list Z) (durations : list Z) (p : Process) :
  heap p !! map = Some ∅ ->
  for_each indices (RunTest_iteration numElements map) durations p
  = (durations ++ elapsed (clock p) (clock_reads p) (length indices),
     mkProcess (heap p) (clock p) (clock_reads p + 2 * length indices)%nat
       (console p ++ iterations_output (clock p) (clock_reads p) indices)
       (entered p)).
Proof.
  revert durations p. induction indices as [| i rest IH]; intros durations p Hmap.
  - simpl. unfold mret, M_ret, ret. rewrite !app_nil_r, Nat.add_0_r.
    destruct p; reflexivity.
  - rewrite for_each_cons, RunTest_iteration_spec. cbn [fst snd].
    rewrite IH by (cbn [heap]; rewrite map_clear_empty; assumption).
    cbn [heap clock clock_reads console entered].
    rewrite map_clear_empty by assumption.
    f_equal.
    + rewrite <- app_assoc. reflexivity.
    + f_equal; [simpl; lia |].
      unfold iteration_output. rewrite milliseconds_count_whole.
      simpl. rewrite <- !app_assoc. reflexivity.
Qed.

Lemma RunTest_loop_run (numIterations numElements : Z) (p : Process) :
  RunTest_loop numIterations numElements p
  = ((fresh (dom (heap p)),
      elapsed (clock p) (clock_reads p) (Z.to_nat numIterations)),
     mkProcess (<[fresh (dom (heap p)) := ∅]> (heap p)) (clock p)
       (clock_reads p + 2 * Z.to_nat numIterations)%nat
       (console p ++ iterations_output (clock p) (clock_reads p)
                       (seqZ 0 numIterations))
       (entered p)).
Proof.
  unfold RunTest_loop. rewrite bind_run. cbv beta.
  unfold new_map. cbn [fst snd]. rewrite bind_run. cbv beta.
  unfold on_heap, map_reserve. cbn [fst snd heap clock clock_reads console entered].
  rewrite bind_run. cbv beta.
  rewrite RunTest_for_each_run by (cbn [heap]; apply lookup_insert_eq).
  cbn [fst snd heap clock clock_reads console entered].
  rewrite length_seqZ. reflexivity.
Qed.

(** The complete effect of a call of [RunTest]. *)
Lemma RunTest_run (T : MapTemplate) (h : Hasher)
    (numIterations numElements : Z) (p : Process) :
  let total :=
    accumulate (elapsed (clock p) (clock_reads p) (Z.to_nat numIterations))
               (d_of_Z 0) in
  RunTest T h numIterations numElements p
  = (total,
     mkProcess (heap p) (clock p)
       (clock_reads p + 2 * Z.to_nat numIterations)%nat
       (console p
          ++ iterations_output (clock p) (clock_reads p) (seqZ 0 numIterations)
          ++ [out_string "Total duration: "; out_double total;
              out_string "; Average duration: ";
              out_double (d_div total (d_of_Z numIterations)); out_endl])
       (entered p ++ [mkInstantiation T h numIterations numElements])).
Proof.
  cbv zeta. unfold RunTest. rewrite bind_run. cbv beta.
  unfold enter. cbn [fst snd]. rewrite bind_run. cbv beta.
  rewrite RunTest_loop_run.
  cbn [fst snd heap clock clock_reads console entered].
  unfold RunTest_report. rewrite !bind_run. cbv beta.
  unfold cout, on_heap, mret, M_ret, ret.
  cbn [fst snd heap clock clock_reads console entered].
  rewrite <- app_assoc.
  rewrite delete_insert_id by (apply not_elem_of_dom, is_fresh).
  reflexivity.
Qed.

Lemma elapsed_nonneg (clk : nat -> Z) (r n : nat) :
  clock_monotone clk -> Forall (fun d => 0 <= d) (elapsed clk r n).
Proof.
  intros Hmono. revert r. induction n as [| n IH]; intros r; simpl.
  - constructor.
  - constructor; [| apply IH]. specialize (Hmono r). lia.
Qed.

End TimingMore.

(** X15: a call of [RunTest] appends to the console, for each loop index
    from 0 to [numIterations - 1] in order, the "started" items with that
    index and the "ended" items with the measured duration in whole
    milliseconds ([d * 1000 / period_den] rounded towards zero) divided by
    1000, and after them the line with the total and the average; it
    prints nothing else.  For a non-negative duration and a positive tick
    rate the whole milliseconds are the largest number of milliseconds
    that does not exceed the duration. *)
Theorem RunTest_console_output `{RandomEngine} `{DoubleArith} `{SystemClock}
    (T : MapTemplate) (h : Hasher) (numIterations numElements : Z) (p : Process) :
  let r := RunTest T h numIterations numElements p in
  console (snd r)
  = console p
      ++ iterations_output (clock p) (clock_reads p) (seqZ 0 numIterations)
      ++ [out_string "Total duration: "; out_double (fst r);
          out_string "; Average duration: ";
          out_double (d_div (fst r) (d_of_Z numIterations)); out_endl]
  /\ (forall d, 0 < period_den -> 0 <= d ->
        whole_milliseconds d * period_den <= d * 1000
        < (whole_milliseconds d + 1) * period_den).
Proof.
  cbv zeta. split.
  - rewrite RunTest_run. reflexivity.
  - intros d Hden Hd. apply whole_milliseconds_floor; assumption.
Qed.

(** X16: a call of [RunTest] reads the clock exactly twice per iteration,
    and it returns the store as it found it: its map object is gone and
    every other object is unchanged. *)
Theorem RunTest_clock_reads_and_store `{RandomEngine} `{DoubleArith} `{SystemClock}
    (T : MapTemplate) (h : Hasher) (numIterations numElements : Z) (p : Process) :
  let r := RunTest T h numIterations numElements p in
  clock_reads (snd r) = (clock_reads p + 2 * Z.to_nat numIterations)%nat
  /\ heap (snd r) = heap p
  /\ clock (snd r) = clock p.
Proof. cbv zeta. rewrite RunTest_run. repeat split. Qed.

(** X17: with [numIterations = 0] the loop body never runs: [RunTest] does
    not read the clock, returns the initial value of the accumulation
    (zero), and prints only the final line, whose average is zero divided
    by zero. *)
Theorem RunTest_zero_iterations `{RandomEngine} `{DoubleArith} `{SystemClock}
    (T : MapTemplate) (h : Hasher) (numElements : Z) (p : Process) :
  RunTest T h 0 numElements p
  = (d_of_Z 0,
     mkProcess (heap p) (clock p) (clock_reads p)
       (console p
          ++ [out_string "Total duration: "; out_double (d_of_Z 0);
              out_string "; Average duration: ";
              out_double (d_div (d_of_Z 0) (d_of_Z 0)); out_endl])
       (entered p ++ [mkInstantiation T h 0 numElements])).
Proof.
  rewrite RunTest_run. simpl Z.to_nat. rewrite Nat.add_0_r. reflexivity.
Qed.

(** X18: in IEEE binary64 arithmetic the average that [RunTest] prints when
    called with [numIterations = 0] is a NaN. *)
Theorem RunTest_zero_iterations_average_nan `{RandomEngine} `{SystemClock}
    (T : MapTemplate) (h : Hasher) (numElements : Z)
    (p : @Process Platform.binary64) :
  exists average : PrimFloat.float,
    console (snd (@RunTest _ Platform.binary64 _ T h 0 numElements p))
    = console p
        ++ [@out_string Platform.binary64 "Total duration: ";
            @out_double Platform.binary64 (@d_of_Z Platform.binary64 0);
            @out_string Platform.binary64 "; Average duration: ";
            @out_double Platform.binary64 average;
            @out_endl Platform.binary64]
    /\ PrimFloat.is_nan average = true.
Proof.
  eexists. split.
  - rewrite RunTest_run. reflexivity.
  - vm_compute. reflexivity.
Qed.

(** X19: when the clock never goes back between successive readings, every
    duration that the loop of [RunTest] records is non-negative. *)
Theorem RunTest_durations_nonneg `{RandomEngine} `{DoubleArith} `{SystemClock}
    (numIterations numElements : Z) (p : Process) :
  clock_monotone (clock p) ->
  Forall (fun d => 0 <= d)
         (snd (fst (RunTest_loop numIterations numElements p))).
Proof.
  intros Hmono. rewrite RunTest_loop_run. cbn [fst snd].
  apply elapsed_nonneg, Hmono.
Qed.

Lemma RunTest_durations_nonneg_witness :
  Forall (fun d => 0 <= d)
         (snd (fst (@RunTest_loop Platform.minstd_rand0 Platform.binary64
                      Platform.ticks_100ns 2 3 (Platform.initial 5)))).
Proof.
  apply (@RunTest_durations_nonneg Platform.minstd_rand0 Platform.binary64
           Platform.ticks_100ns 2 3 (Platform.initial 5)).
  intros n. simpl. lia.
Defined.

(** X20: in exact arithmetic, with a positive tick rate, the value that
    [RunTest] returns is the sum of the recorded durations in ticks divided
    by the number of ticks per second. *)
Theorem RunTest_total_exact `{RandomEngine} (clk : SystemClock)
    (T : MapTemplate) (h : Hasher) (numIterations numElements : Z)
    (p : @Process Platform.rational) :
  0 < period_den ->
  Qeq (fst (@RunTest _ Platform.rational clk T h numIterations numElements p))
      (Qdiv (inject_Z (total_ticks (elapsed (clock p) (clock_reads p)
                                      (Z.to_nat numIterations))))
            (inject_Z period_den)).
Proof.
  intros Hden. rewrite RunTest_run. cbn [fst].
  apply (accumulate_exact clk), Hden.
Qed.

Lemma RunTest_total_exact_witness :
  let p := @mkProcess Platform.rational ∅ (fun n => 5 * Z.of_nat n) O [] [] in
  Qeq (fst (@RunTest Platform.minstd_rand0 Platform.rational Platform.ticks_100ns
              std_unordered_map Hasher_B 2 3 p))
      (Qdiv (inject_Z (total_ticks (elapsed (clock p) (clock_reads p) (Z.to_nat 2))))
            (inject_Z (@period_den Platform.ticks_100ns))).
Proof.
  intros p.
  apply (@RunTest_total_exact Platform.minstd_rand0 Platform.ticks_100ns
           std_unordered_map Hasher_B 2 3 p).
  simpl. lia.
Defined.

(** X21: at the end of every iteration of the loop of [RunTest] the map is
    empty, and the iteration changes no other object of the store. *)
Theorem RunTest_iteration_clears_map `{RandomEngine} `{DoubleArith} `{SystemClock}
    (numElements : Z) (map : positive) (i : Z) (durations : list Z) (p : Process) :
  let p' := snd (RunTest_iteration numElements map i durations p) in
  map_size map (heap p') = 0%nat
  /\ (forall l, l <> map -> heap p' !! l = heap p !! l).
Proof.
  cbv zeta. rewrite RunTest_iteration_spec. cbn [snd heap]. split.
  - unfold map_size, map_clear. rewrite lookup_alter_eq.
    destruct (heap p !! map); reflexivity.
  - intros l Hne. unfold map_clear. apply lookup_alter_ne. congruence.
Qed.

(** X22: [_tmain] reads the clock exactly 40 times (four runs of five
    iterations, two readings each) and returns the store as it found
    it. *)
Theorem tmain_clock_reads_and_store `{RandomEngine} `{DoubleArith} `{SystemClock}
    (argc : Z) (argv : list string) (p : Process) :
  let final := snd (_tmain argc argv p) in
  clock_reads final = (clock_reads p + 40)%nat
  /\ heap final = heap p
  /\ clock final = clock p.
Proof.
  cbv zeta.
  pose proof (RunTest_spec boost_unordered_map Hasher_A 5 20000 p) as S1.
  destruct (RunTest boost_unordered_map Hasher_A 5 20000 p) as [d1 p1] eqn:E1.
  pose proof (RunTest_spec std_unordered_map Hasher_A 5 20000 p1) as S2.
  destruct (RunTest std_unordered_map Hasher_A 5 20000 p1) as [d2 p2] eqn:E2.
  pose proof (RunTest_spec boost_unordered_map Hasher_B 5 20000 p2) as S3.
  destruct (RunTest boost_unordered_map Hasher_B 5 20000 p2) as [d3 p3] eqn:E3.
  pose proof (RunTest_spec std_unordered_map Hasher_B 5 20000 p3) as S4.
  destruct (RunTest std_unordered_map Hasher_B 5 20000 p3) as [d4 p4] eqn:E4.
  cbv zeta in S1, S2, S3, S4. cbn [fst snd] in *.
  destruct S1 as (_ & Hh1 & Hc1 & Hr1 & _).
  destruct S2 as (_ & Hh2 & Hc2 & Hr2 & _).
  destruct S3 as (_ & Hh3 & Hc3 & Hr3 & _).
  destruct S4 as (_ & Hh4 & Hc4 & Hr4 & _).
  cbv beta zeta delta [_tmain].
  do 4 (rewrite bind_run; cbv beta).
  rewrite E1; cbn [fst snd]. rewrite E2; cbn [fst snd].
  rewrite E3; cbn [fst snd]. rewrite E4; cbn [fst snd].
  repeat (rewrite bind_run, cout_run; cbv beta;
          cbn [heap clock clock_reads console entered]).
  unfold mret, M_ret, ret. cbn [snd heap clock clock_reads].
  change (Z.to_nat 5) with 5%nat in *.
  repeat split.
  - lia.
  - congruence.
  - congruence.
Qed.

(** X23: every assignment that a call of [PopulateMap] executes stores a
    value between 0 and 255, which fits the map's [std::uint8_t] value
    type, under a key whose numeric field fits [std::uint32_t]. *)
Theorem PopulateMap_assignments_in_range `{RandomEngine}
    (numElements : Z) (arg : gmap Key Z) (σ : Store) :
  Forall (fun kv => wf_Key (fst kv) /\ 0 <= snd kv < 256)
         (snd (PopulateMap numElements arg σ)).
Proof.
  rewrite PopulateMap_written.
  eapply Forall_impl; [apply generated_wf |].
  intros kv (Hwf & _ & Hv). split; assumption.
Qed.
